(** * Spectroscopic and binary constraints of FOAM ([foam/additional_constraints.py])

    Shallow embedding of [spectro_constraint], [get_age] and
    [enforce_binary_constraints].

    Numbers.  Grid values are float64 in the source; they are modelled by
    exact rationals [Q].  Where the source can leave the finite numbers
    (a division by zero on numpy scalars, [np.log10] of a non-positive
    value) the value is an [xreal]: a finite rational, +inf, -inf or nan,
    compared the IEEE way ([nan] is never smaller nor larger).
    [np.log10] is left abstract: the filters are parametrised by it.

    Tables.  A pandas DataFrame is a list of rows; the primary grid keeps
    its index label next to each row ([Z * theo_row]).  A Python dict used
    for the isochrone-cloud summary is an association list in insertion
    order (the iteration order of a Python dict).

    Errors.  Exceptions are the left side of [res]; an exception that is
    never caught ends the run. *)

From Stdlib Require Import QArith Qround Qabs ZArith List Bool Lia Lqa Permutation.
From Stdlib Require String.
Import ListNotations.

Open Scope Q_scope.

(* ------------------------------------------------------------------ *)
(** ** Python exceptions and the error monad *)

Inductive py_exc :=
| TypeError    (* int() of a Series whose length is not one *)
| ValueError   (* max()/min() of an empty sequence *)
| KeyError     (* missing dict key, DataFrame.drop of a missing label *)
| IndexError   (* [Obs_dFrame[...][0]] on an empty observation table *)
| NameError.   (* use of an undefined global name *)

Definition res (A : Type) : Type := (py_exc + A)%type.

Definition ret {A} (a : A) : res A := inr a.
Definition raise {A} (e : py_exc) : res A := inl e.

Definition bind {A B} (m : res A) (k : A -> res B) : res B :=
  match m with
  | inl e => inl e
  | inr a => k a
  end.

Notation "x <- m ;; k" := (bind m (fun x => k))
  (at level 61, m at next level, right associativity).

Lemma bind_inr {A B} (m : res A) (k : A -> res B) b :
  bind m k = inr b -> exists a, m = inr a /\ k a = inr b.
Proof. destruct m as [e|a]; simpl; [discriminate | eauto]. Qed.

(* ------------------------------------------------------------------ *)
(** ** Float values *)

Inductive xreal :=
| Fin (q : Q)
| PInf
| NInf
| NaN.

Definition qlt (a b : Q) : bool := negb (Qle_bool b a).

Lemma qlt_spec a b : qlt a b = true <-> a < b.
Proof.
  unfold qlt. rewrite negb_true_iff. split; intro H.
  - apply Qnot_le_lt. intro Hle. apply Qle_bool_iff in Hle. congruence.
  - destruct (Qle_bool b a) eqn:E; [|reflexivity].
    apply Qle_bool_iff in E. exfalso. apply (Qlt_not_le a b); assumption.
Qed.

(** [a < b] on floats. *)
Definition xlt (a b : xreal) : bool :=
  match a, b with
  | Fin x, Fin y => qlt x y
  | Fin _, PInf | NInf, Fin _ | NInf, PInf => true
  | _, _ => false
  end.

Lemma xlt_irrefl x : xlt x x = false.
Proof.
  destruct x; simpl; try reflexivity.
  destruct (qlt q q) eqn:E; [|reflexivity].
  apply qlt_spec in E. exfalso. apply (Qlt_irrefl q E).
Qed.

(** [a / b] on float64 numpy scalars: dividing by zero gives an infinity
    (or nan for [0/0]) and a RuntimeWarning, not an exception. *)
Definition xdiv (a b : Q) : xreal :=
  if Qeq_bool b 0 then
    if qlt 0 a then PInf else if qlt a 0 then NInf else NaN
  else Fin (a / b).

(** [round(x, n)] on a float64: scale by [10^n], round half to even,
    scale back (numpy's algorithm, on exact values). *)
Definition pow10 (n : nat) : positive := Nat.iter n (Pos.mul 10) 1%positive.

Definition round_half_even (y : Q) : Z :=
  let f := Qfloor y in
  let d := y - inject_Z f in
  if qlt d (1#2) then f
  else if qlt (1#2) d then (f + 1)%Z
  else if Z.even f then f else (f + 1)%Z.

Definition round_q (x : Q) (n : nat) : Q :=
  Qmake (round_half_even (x * inject_Z (Zpos (pow10 n)))) (pow10 n).

Definition py_round (x : xreal) (n : nat) : xreal :=
  match x with
  | Fin q => Fin (round_q q n)
  | other => other
  end.

(** [int(x)]: truncation toward zero. *)
Definition py_int (x : Q) : Z :=
  if Qle_bool 0 x then Qfloor x else (- Qfloor (- x))%Z.

(** [np.isclose(a, b)] with its defaults [rtol=1e-5], [atol=1e-8]. *)
Definition isclose (a b : Q) : bool :=
  Qle_bool (Qabs (a - b)) ((1#100000000) + (1#100000) * Qabs b).

Example round_ex1 : round_q 2.25 1 = Qmake 22 10.
Proof. reflexivity. Qed.
Example round_ex2 : round_q 2.75 1 = Qmake 28 10.
Proof. reflexivity. Qed.
Example round_ex3 : round_q (0.70 - 0.01) 2 = Qmake 69 100.
Proof. reflexivity. Qed.

(* ------------------------------------------------------------------ *)
(** ** Tables *)

(** A row of the merit-value grid [df_Theo] (the field [Z] of the source
    is [Z_] here, [Z] being the type of integers). *)
Record theo_row := {
  Z_ : Q; M : Q; logD : Q; aov : Q; fov : Q; Xc : Q;
  logTeff : Q; logg : Q; logL : Q; meritValue : Q
}.

(** A row of [spectroGrid_dataFrame]: grid coordinates and age. *)
Record grid_row := {
  gZ : Q; gM : Q; glogD : Q; gaov : Q; gfov : Q; gXc : Q; age : Q
}.

(** A row of an isochrone-cloud track. *)
Record iso_row := {
  star_age : Q; log_Teff : Q; log_g : Q; log_L : Q
}.

(** The first data row of the observation table. *)
Record obs_row := {
  Teff : Q; Teff_err : Q;
  ologg : Q; ologg_err : Q;
  ologL : Q; ologL_err : Q
}.

(** The [spectro_companion] dict. *)
Record companion := {
  q : Q; q_err : Q; primary_pulsates : bool;
  cTeff : option Q; cTeff_err : Q;
  clogg : option Q; clogg_err : Q;
  clogL : option Q; clogL_err : Q
}.

(** [isocloud_grid_summary]: Z -> (mass -> track). *)
Definition track := list iso_row.
Definition isocloud_dict := list (Q * track).
Definition isocloud_summary := list (Q * isocloud_dict).

(** [d[k]] on a dict with float keys (exact key equality). *)
Fixpoint dict_get {A} (d : list (Q * A)) (k : Q) : res A :=
  match d with
  | [] => raise KeyError
  | (k', v) :: d' => if Qeq_bool k' k then ret v else dict_get d' k
  end.

(* ------------------------------------------------------------------ *)
(** ** [get_age] *)

(** [max(unique_xc)] and [min(unique_xc)]; [pd.unique] only removes
    duplicates, which changes neither. *)
Fixpoint list_max_from (m : Q) (l : list Q) : Q :=
  match l with
  | [] => m
  | x :: l' => list_max_from (if qlt m x then x else m) l'
  end.

Fixpoint list_min_from (m : Q) (l : list Q) : Q :=
  match l with
  | [] => m
  | x :: l' => list_min_from (if qlt x m then x else m) l'
  end.

Definition py_max (l : list Q) : res Q :=
  match l with [] => raise ValueError | x :: l' => ret (list_max_from x l') end.

Definition py_min (l : list Q) : res Q :=
  match l with [] => raise ValueError | x :: l' => ret (list_min_from x l') end.

(** [pd.unique(df[np.isclose(df.Z, model.Z)].Xc)] *)
Definition unique_xc (model : theo_row) (df : list grid_row) : list Q :=
  map gXc (filter (fun r => isclose (gZ r) (Z_ model)) df).

(** The mask [np.isclose(df.Z, model.Z) & ... & np.isclose(df.Xc, xc)]. *)
Definition coords_match (model : theo_row) (xc : Q) (r : grid_row) : bool :=
  isclose (gZ r) (Z_ model) && isclose (gM r) (M model)
  && isclose (glogD r) (logD model) && isclose (gaov r) (aov model)
  && isclose (gfov r) (fov model) && isclose (gXc r) xc.

(** [int(df.loc[mask].age)]: converting a Series to [int] needs exactly
    one element, otherwise pandas raises [TypeError]. *)
Definition loc_age (df : list grid_row) (model : theo_row) (xc : Q) : res Z :=
  match filter (coords_match model xc) df with
  | [r] => ret (py_int (age r))
  | _ => raise TypeError
  end.

Definition get_age (model : theo_row) (df : list grid_row) : res (Z * Z) :=
  let xs := unique_xc model df in
  mx <- py_max xs ;;
  if qlt (Qabs (Xc model - mx)) (1#10000) then
    max_age <- loc_age df model (round_q (Xc model - 0.01) 2) ;;
    ret (0%Z, max_age)
  else
    mn <- py_min xs ;;
    if qlt (Qabs (Xc model - mn)) (1#10000) then
      min_age <- loc_age df model (round_q (Xc model + 0.01) 2) ;;
      a <- loc_age df model (round_q (Xc model) 2) ;;
      ret (min_age, (a + a - min_age)%Z)
    else
      min_age <- loc_age df model (round_q (Xc model + 0.01) 2) ;;
      max_age <- loc_age df model (round_q (Xc model - 0.01) 2) ;;
      ret (min_age, max_age).

(* ------------------------------------------------------------------ *)
(** ** Companion mass range (lines 108-115) *)

Definition mass_range (model : theo_row) (sc : companion) : xreal * xreal :=
  if primary_pulsates sc then
    (py_round (Fin (M model * (q sc - q_err sc))) 1,
     py_round (Fin (M model * (q sc + q_err sc))) 1)
  else
    (py_round (xdiv (M model) (q sc + q_err sc)) 1,
     py_round (xdiv (M model) (q sc - q_err sc)) 1).

(** [key_Mass < M2_min or key_Mass > M2_max] *)
Definition mass_out (M2_min M2_max : xreal) (k : Q) : bool :=
  xlt (Fin k) M2_min || xlt M2_max (Fin k).

(** [df[(df.star_age < max_age) & (df.star_age > min_age)]] *)
Definition age_window (min_age max_age : Z) (df : track) : track :=
  filter (fun r => qlt (star_age r) (inject_Z max_age)
                   && qlt (inject_Z min_age) (star_age r)) df.

(* ------------------------------------------------------------------ *)
(** ** The error-box filters and the orchestrator *)

Section Constraints.

(** [np.log10], on the finite values it is applied to. *)
Variable log10 : Q -> xreal.

(** Lines 30-35: the primary error box, six successive row selections. *)
Definition primary_filter (o : obs_row) (nsigma : Q)
    (df : list (Z * theo_row)) : list (Z * theo_row) :=
  let df := filter (fun ir => xlt (Fin (logTeff (snd ir)))
                                  (log10 (Teff o + nsigma * Teff_err o))) df in
  let df := filter (fun ir => xlt (log10 (Teff o - nsigma * Teff_err o))
                                  (Fin (logTeff (snd ir)))) df in
  let df := filter (fun ir => qlt (logg (snd ir)) (ologg o + nsigma * ologg_err o)) df in
  let df := filter (fun ir => qlt (ologg o - nsigma * ologg_err o) (logg (snd ir))) df in
  let df := filter (fun ir => qlt (logL (snd ir)) (ologL o + nsigma * ologL_err o)) df in
  filter (fun ir => qlt (ologL o - nsigma * ologL_err o) (logL (snd ir))) df.

(** Lines 129-137: the companion error box, for the observables given. *)
Definition companion_box (sc : companion) (nsigma : Q) (df : track) : track :=
  let df := match cTeff sc with
            | Some t =>
                let df := filter (fun r => xlt (Fin (log_Teff r))
                                   (log10 (t + nsigma * cTeff_err sc))) df in
                filter (fun r => xlt (log10 (t - nsigma * cTeff_err sc))
                                   (Fin (log_Teff r))) df
            | None => df
            end in
  let df := match clogg sc with
            | Some g =>
                let df := filter (fun r => qlt (log_g r) (g + nsigma * clogg_err sc)) df in
                filter (fun r => qlt (g - nsigma * clogg_err sc) (log_g r)) df
            | None => df
            end in
  match clogL sc with
  | Some l =>
      let df := filter (fun r => qlt (log_L r) (l + nsigma * clogL_err sc)) df in
      filter (fun r => qlt (l - nsigma * clogL_err sc) (log_L r)) df
  | None => df
  end.

(** Lines 119-139: the loop over the mass tracks; [true] is the early
    [return None] (the model stays), [false] falling out of the loop. *)
Fixpoint scan_tracks (sc : companion) (nsigma : Q) (M2_min M2_max : xreal)
    (min_age max_age : Z) (d : isocloud_dict) : bool :=
  match d with
  | [] => false
  | (key_Mass, df) :: d' =>
      if mass_out M2_min M2_max key_Mass then
        scan_tracks sc nsigma M2_min M2_max min_age max_age d'
      else
        let df := age_window min_age max_age df in
        if Nat.eqb (length df) 0 then
          scan_tracks sc nsigma M2_min M2_max min_age max_age d'
        else
          let df := companion_box sc nsigma df in
          if Nat.ltb 0 (length df) then true
          else scan_tracks sc nsigma M2_min M2_max min_age max_age d'
  end.

(** [enforce_binary_constraints]: [None] keeps the model, [Some name]
    asks for the removal of the row labelled [name]. *)
Definition enforce_binary_constraints (sc : companion)
    (summary : isocloud_summary) (nsigma : Q) (spectroGrid : list grid_row)
    (row : Z * theo_row) : res (option Z) :=
  let (name, model) := row in
  ages <- get_age model spectroGrid ;;
  let (min_age, max_age) := ages in
  let (M2_min, M2_max) := mass_range model sc in
  isocloud_dict <- dict_get summary (Z_ model) ;;
  if scan_tracks sc nsigma M2_min M2_max min_age max_age isocloud_dict
  then ret None
  else ret (Some name).

(** [df_Theo.apply(func, axis=1)] on a non-empty frame: [func] row by row,
    the first exception propagating. *)
Fixpoint apply_rows (f : Z * theo_row -> res (option Z))
    (df : list (Z * theo_row)) : res (list (option Z)) :=
  match df with
  | [] => ret []
  | r :: df' => x <- f r ;; xs <- apply_rows f df' ;; ret (x :: xs)
  end.

(** [df_Theo.drop(i, inplace=True)]: removes every row labelled [i];
    a label not in the index raises [KeyError]. *)
Definition drop_label (i : Z) (df : list (Z * theo_row)) : res (list (Z * theo_row)) :=
  if existsb (fun ir => Z.eqb (fst ir) i) df
  then ret (filter (fun ir => negb (Z.eqb (fst ir) i)) df)
  else raise KeyError.

(** Lines 46-48; [None] (or nan) entries are skipped. *)
Fixpoint drop_all (drops : list (option Z)) (df : list (Z * theo_row)) :
    res (list (Z * theo_row)) :=
  match drops with
  | [] => ret df
  | None :: drops' => drop_all drops' df
  | Some i :: drops' => df' <- drop_label i df ;; drop_all drops' df'
  end.

(** [spectro_constraint], from the loaded tables to the table written by
    [to_hdf] (line 52).  [Obs_dFrame[...][0]] reads the first row; on an
    empty table the integer index falls back to a position and raises
    [IndexError].
    Line 39 calls [logger.error], but no [logger] is defined or imported
    in the module: the call raises [NameError].
    When no row survives the primary box, [df_Theo.apply] on the empty
    frame returns the (empty) frame itself, whose iteration yields its
    column labels; [drop] of a column label on the row axis raises
    [KeyError]. *)
Definition spectro_constraint (obs : list obs_row) (df_Theo : list (Z * theo_row))
    (nsigma : Q) (spectro_companion : option companion)
    (isocloud_grid_summary : option isocloud_summary)
    (spectroGrid : option (list grid_row)) : res (list (Z * theo_row)) :=
  o <- match obs with [] => raise IndexError | o :: _ => ret o end ;;
  let df := primary_filter o nsigma df_Theo in
  match spectro_companion with
  | None => ret df
  | Some sc =>
      match isocloud_grid_summary, spectroGrid with
      | Some summary, Some g =>
          match df with
          | [] => raise KeyError
          | _ :: _ =>
              drops <- apply_rows (enforce_binary_constraints sc summary nsigma g) df ;;
              drop_all drops df
          end
      | _, _ => raise NameError
      end
  end.

End Constraints.

(* ------------------------------------------------------------------ *)
(** ** A small synthetic grid (the track of the spec's test section) *)

Definition mk_model (xc : Q) : theo_row :=
  {| Z_ := 0.014; M := 5; logD := 1; aov := 0; fov := 0.01; Xc := xc;
     logTeff := 4.2; logg := 4; logL := 3; meritValue := 1 |}.

Definition mk_grid (xc a : Q) : grid_row :=
  {| gZ := 0.014; gM := 5; glogD := 1; gaov := 0; gfov := 0.01; gXc := xc; age := a |}.

Definition grid3 : list grid_row :=
  [mk_grid 0.70 10; mk_grid 0.69 20; mk_grid 0.68 30].

Definition mk_iso (a g : Q) : iso_row :=
  {| star_age := a; log_Teff := 4; log_g := g; log_L := 2 |}.

Definition comp_primary : companion :=
  {| q := 0.5; q_err := 0.05; primary_pulsates := true;
     cTeff := None; cTeff_err := 0; clogg := Some 4; clogg_err := 0.1;
     clogL := None; clogL_err := 0 |}.

Definition comp_secondary : companion :=
  {| q := 0.5; q_err := 0.05; primary_pulsates := false;
     cTeff := None; cTeff_err := 0; clogg := Some 4; clogg_err := 0.1;
     clogL := None; clogL_err := 0 |}.

(** Two candidate tracks: only the second crosses the companion box. *)
Definition dict2 : isocloud_dict :=
  [(2.5, [mk_iso 15 3; mk_iso 25 3]); (2.6, [mk_iso 15 3.95; mk_iso 25 3])].

Definition summary2 : isocloud_summary := [(0.014, dict2)].

(** A concrete [log10] for evaluating the filters on examples. *)
Definition log10_id (x : Q) : xreal := Fin x.

Example get_age_interior : get_age (mk_model 0.69) grid3 = inr (10%Z, 30%Z).
Proof. vm_compute. reflexivity. Qed.
Example get_age_youngest : get_age (mk_model 0.70) grid3 = inr (0%Z, 20%Z).
Proof. vm_compute. reflexivity. Qed.
Example get_age_oldest : get_age (mk_model 0.68) grid3 = inr (20%Z, 40%Z).
Proof. vm_compute. reflexivity. Qed.
Example enforce_keeps :
  enforce_binary_constraints log10_id comp_primary summary2 3 grid3 (7%Z, mk_model 0.69)
  = inr None.
Proof. vm_compute. reflexivity. Qed.

(* ------------------------------------------------------------------ *)
(** ** Auxiliary lemmas *)

Lemma qlt_false a b : qlt a b = false <-> b <= a.
Proof.
  unfold qlt. rewrite negb_false_iff. apply Qle_bool_iff.
Qed.

Lemma list_max_from_spec (l : list Q) (m : Q) :
  In (list_max_from m l) (m :: l) /\
  (forall x, In x (m :: l) -> x <= list_max_from m l).
Proof.
  revert m. induction l as [|y l IH]; intro m; simpl.
  - split; [now left|]. intros x [<-|[]]. apply Qle_refl.
  - destruct (IH (if qlt m y then y else m)) as [Hin Hge].
    destruct (qlt m y) eqn:E.
    + apply qlt_spec in E. split.
      * destruct Hin as [<-|Hin]; [right; now left | right; now right].
      * intros x [<-|[<-|Hx]].
        -- apply Qle_trans with y; [now apply Qlt_le_weak|]. apply Hge; now left.
        -- apply Hge; now left.
        -- apply Hge; now right.
    + apply qlt_false in E. split.
      * destruct Hin as [<-|Hin]; [now left | right; now right].
      * intros x [<-|[<-|Hx]].
        -- apply Hge; now left.
        -- apply Qle_trans with m; [exact E|]. apply Hge; now left.
        -- apply Hge; now right.
Qed.

Lemma list_min_from_spec (l : list Q) (m : Q) :
  In (list_min_from m l) (m :: l) /\
  (forall x, In x (m :: l) -> list_min_from m l <= x).
Proof.
  revert m. induction l as [|y l IH]; intro m; simpl.
  - split; [now left|]. intros x [<-|[]]. apply Qle_refl.
  - destruct (IH (if qlt y m then y else m)) as [Hin Hge].
    destruct (qlt y m) eqn:E.
    + apply qlt_spec in E. split.
      * destruct Hin as [<-|Hin]; [right; now left | right; now right].
      * intros x [<-|[<-|Hx]].
        -- apply Qle_trans with y; [apply Hge; now left|]. now apply Qlt_le_weak.
        -- apply Hge; now left.
        -- apply Hge; now right.
    + apply qlt_false in E. split.
      * destruct Hin as [<-|Hin]; [now left | right; now right].
      * intros x [<-|[<-|Hx]].
        -- apply Hge; now left.
        -- apply Qle_trans with m; [apply Hge; now left|exact E].
        -- apply Hge; now right.
Qed.

(** [max] of a list returns its greatest element (up to [==]). *)
Lemma py_max_greatest (xs : list Q) (mx : Q) :
  In mx xs -> (forall x, In x xs -> x <= mx) ->
  exists mx', py_max xs = inr mx' /\ mx' == mx.
Proof.
  intros Hin Hge. destruct xs as [|y l]; [destruct Hin|].
  destruct (list_max_from_spec l y) as [Hin' Hge'].
  exists (list_max_from y l). split; [reflexivity|].
  apply Qle_antisym; [apply Hge; exact Hin' | apply Hge'; exact Hin].
Qed.

Lemma py_min_least (xs : list Q) (mn : Q) :
  In mn xs -> (forall x, In x xs -> mn <= x) ->
  exists mn', py_min xs = inr mn' /\ mn' == mn.
Proof.
  intros Hin Hge. destruct xs as [|y l]; [destruct Hin|].
  destruct (list_min_from_spec l y) as [Hin' Hge'].
  exists (list_min_from y l). split; [reflexivity|].
  apply Qle_antisym; [apply Hge'; exact Hin | apply Hge; exact Hin'].
Qed.

(** [abs(x - m) < 1e-4] does not depend on the representative of [m]. *)
Lemma near_compat (x m m' : Q) :
  m == m' -> qlt (Qabs (x - m)) (1#10000) = qlt (Qabs (x - m')) (1#10000).
Proof.
  intro E. destruct (qlt (Qabs (x - m')) (1#10000)) eqn:H.
  - apply qlt_spec in H. apply qlt_spec.
    apply Qabs_diff_Qlt_condition in H. apply Qabs_diff_Qlt_condition. lra.
  - apply qlt_false in H. apply qlt_false.
    apply Qnot_lt_le. intro H'. apply Qabs_diff_Qlt_condition in H'.
    apply (Qle_not_lt _ _ H). apply Qabs_diff_Qlt_condition. lra.
Qed.

Lemma filter_filter {A} (p k : A -> bool) (l : list A) :
  filter p (filter k l) = filter (fun x => k x && p x) l.
Proof.
  induction l as [|x l IH]; simpl; [reflexivity|].
  destruct (k x); simpl; [destruct (p x); simpl|]; rewrite IH; reflexivity.
Qed.

(** Dropping labels only selects rows. *)
Lemma drop_all_filter (drops : list (option Z)) (df out : list (Z * theo_row)) :
  drop_all drops df = inr out -> exists keep, out = filter keep df.
Proof.
  revert df. induction drops as [|[i|] drops IH]; intros df H; simpl in H.
  - injection H as <-. exists (fun _ => true).
    induction df as [|x df IHdf]; simpl; [reflexivity|]. now rewrite <- IHdf.
  - apply bind_inr in H as [df' [Hd Hr]]. unfold drop_label in Hd.
    destruct existsb; [|discriminate]. injection Hd as <-.
    destruct (IH _ Hr) as [keep ->]. rewrite filter_filter. eauto.
  - exact (IH df H).
Qed.

(* ------------------------------------------------------------------ *)
(** ** Claims *)

(** C1.  With no companion, [spectro_constraint] keeps exactly the rows of
    the primary grid strictly inside the n-sigma box of the first
    observation row: [logTeff] strictly between [log10(Teff - n*Teff_err)]
    and [log10(Teff + n*Teff_err)], [logg] and [logL] strictly between
    their [value -/+ n*err]; a row on a bound is not kept. *)
Theorem primary_box_first_row (log10 : Q -> xreal) (o : obs_row)
    (rest : list obs_row) (df : list (Z * theo_row)) (nsigma : Q)
    (s : option isocloud_summary) (g : option (list grid_row)) :
  spectro_constraint log10 (o :: rest) df nsigma None s g
    = inr (primary_filter log10 o nsigma df) /\
  (forall i r,
     In (i, r) (primary_filter log10 o nsigma df) <->
     In (i, r) df /\
     xlt (log10 (Teff o - nsigma * Teff_err o)) (Fin (logTeff r)) = true /\
     xlt (Fin (logTeff r)) (log10 (Teff o + nsigma * Teff_err o)) = true /\
     ologg o - nsigma * ologg_err o < logg r < ologg o + nsigma * ologg_err o /\
     ologL o - nsigma * ologL_err o < logL r < ologL o + nsigma * ologL_err o) /\
  (forall i r,
     (Fin (logTeff r) = log10 (Teff o - nsigma * Teff_err o) \/
      Fin (logTeff r) = log10 (Teff o + nsigma * Teff_err o) \/
      logg r == ologg o - nsigma * ologg_err o \/
      logg r == ologg o + nsigma * ologg_err o \/
      logL r == ologL o - nsigma * ologL_err o \/
      logL r == ologL o + nsigma * ologL_err o) ->
     ~ In (i, r) (primary_filter log10 o nsigma df)).
Proof.
  assert (Hiff : forall i r,
     In (i, r) (primary_filter log10 o nsigma df) <->
     In (i, r) df /\
     xlt (log10 (Teff o - nsigma * Teff_err o)) (Fin (logTeff r)) = true /\
     xlt (Fin (logTeff r)) (log10 (Teff o + nsigma * Teff_err o)) = true /\
     ologg o - nsigma * ologg_err o < logg r < ologg o + nsigma * ologg_err o /\
     ologL o - nsigma * ologL_err o < logL r < ologL o + nsigma * ologL_err o).
  { intros i r. unfold primary_filter. rewrite !filter_In. simpl.
    rewrite !qlt_spec. tauto. }
  split; [reflexivity|]. split; [exact Hiff|].
  intros i r Hb Hin. apply Hiff in Hin.
  destruct Hin as (_ & HT1 & HT2 & [Hg1 Hg2] & [HL1 HL2]).
  destruct Hb as [E|[E|[E|[E|[E|E]]]]].
  - rewrite <- E, xlt_irrefl in HT1. discriminate.
  - rewrite E, xlt_irrefl in HT2. discriminate.
  - rewrite E in Hg1. exact (Qlt_irrefl _ Hg1).
  - rewrite E in Hg2. exact (Qlt_irrefl _ Hg2).
  - rewrite E in HL1. exact (Qlt_irrefl _ HL1).
  - rewrite E in HL2. exact (Qlt_irrefl _ HL2).
Qed.

Definition obs1 : obs_row :=
  {| Teff := 4.2; Teff_err := 0.1; ologg := 4; ologg_err := 0.1;
     ologL := 3; ologL_err := 0.1 |}.

Lemma primary_box_first_row_witness :
  spectro_constraint log10_id [obs1] [(7%Z, mk_model 0.69)] 3 None None None
    = inr (primary_filter log10_id obs1 3 [(7%Z, mk_model 0.69)]) /\
  In (7%Z, mk_model 0.69) (primary_filter log10_id obs1 3 [(7%Z, mk_model 0.69)]).
Proof.
  destruct (primary_box_first_row log10_id obs1 [] [(7%Z, mk_model 0.69)] 3 None None)
    as [H1 [H2 _]].
  split; [exact H1|]. apply H2. split; [now left|].
  vm_compute. repeat split; reflexivity.
Defined.

(** C7.  Whenever [spectro_constraint] writes a table, that table is the
    input grid with some rows removed: a selection of the input rows in
    their order, each with its label and values unchanged (the row type
    fixes the columns), hence no longer than the input. *)
Theorem spectro_constraint_selects (log10 : Q -> xreal) (obs : list obs_row)
    (df : list (Z * theo_row)) (nsigma : Q) (sc : option companion)
    (s : option isocloud_summary) (g : option (list grid_row))
    (out : list (Z * theo_row)) :
  spectro_constraint log10 obs df nsigma sc s g = inr out ->
  (exists keep, out = filter keep df) /\
  (length out <= length df)%nat /\
  (forall x, In x out -> In x df).
Proof.
  intro H.
  assert (Hk : exists keep, out = filter keep df).
  { unfold spectro_constraint in H. apply bind_inr in H as [o [_ H]].
    assert (Hp : exists keep, primary_filter log10 o nsigma df = filter keep df).
    { unfold primary_filter. rewrite !filter_filter. eauto. }
    destruct Hp as [k0 Hp]. rewrite Hp in H.
    destruct sc as [c|].
    - destruct s as [summary|], g as [gr|]; try discriminate.
      destruct (filter k0 df) as [|x l] eqn:Hf; [discriminate|].
      apply bind_inr in H as [drops [_ H]]. rewrite <- Hf in H.
      apply drop_all_filter in H as [k1 ->]. rewrite filter_filter. eauto.
    - injection H as <-. eauto. }
  destruct Hk as [keep ->]. split; [eauto|]. split.
  - apply filter_length_le.
  - intros x Hx. apply filter_In in Hx. apply Hx.
Qed.

Lemma spectro_constraint_selects_witness :
  spectro_constraint log10_id
    [{| Teff := 4.2; Teff_err := 0.1; ologg := 4; ologg_err := 0.1;
        ologL := 3; ologL_err := 0.1 |}]
    [(7%Z, mk_model 0.69); (8%Z, mk_model 0.68)] 3 (Some comp_primary)
    (Some summary2) (Some grid3) = inr [(7%Z, mk_model 0.69)] /\
  (length [(7%Z, mk_model 0.69)] <= length [(7%Z, mk_model 0.69); (8%Z, mk_model 0.68)])%nat.
Proof.
  assert (H : spectro_constraint log10_id
    [{| Teff := 4.2; Teff_err := 0.1; ologg := 4; ologg_err := 0.1;
        ologL := 3; ologL_err := 0.1 |}]
    [(7%Z, mk_model 0.69); (8%Z, mk_model 0.68)] 3 (Some comp_primary)
    (Some summary2) (Some grid3) = inr [(7%Z, mk_model 0.69)])
    by (vm_compute; reflexivity).
  split; [exact H|].
  exact (proj1 (proj2 (spectro_constraint_selects _ _ _ _ _ _ _ _ H))).
Defined.

(** The grid row matched by the lookup mask at [xc], when it is unique. *)
Definition row_at (df : list grid_row) (model : theo_row) (xc : Q) (r : grid_row) : Prop :=
  filter (coords_match model xc) df = [r].

Lemma loc_age_row_at df model xc r :
  row_at df model xc r -> loc_age df model xc = inr (py_int (age r)).
Proof. unfold row_at, loc_age. intros ->. reflexivity. Qed.

(** C2.  Let [mx] and [mn] be the largest and smallest [Xc] of the grid
    rows whose [Z] is close to the model's, at least 0.01 apart.  The age
    bracket of [get_age] is
    - at the largest [Xc] (within 1e-4): [(0, age at Xc-0.01)];
    - at the smallest [Xc]: [(age at Xc+0.01, a + (a - age at Xc+0.01))]
      where [a] is the age of the row at the model's own [Xc];
    - otherwise [(age at Xc+0.01, age at Xc-0.01)];
    where "the row at x" is the single row matching the model's
    [(Z, M, logD, aov, fov)] and [x] (rounded to 2 decimals) with
    [np.isclose], and every age is truncated to an integer. *)
Theorem get_age_bracket (model : theo_row) (df : list grid_row) (mx mn : Q)
    (Hmx_in : In mx (unique_xc model df))
    (Hmx : forall x, In x (unique_xc model df) -> x <= mx)
    (Hmn_in : In mn (unique_xc model df))
    (Hmn : forall x, In x (unique_xc model df) -> mn <= x)
    (Hspan : mn + 0.01 <= mx) :
  (forall r_older,
     Qabs (Xc model - mx) < 1#10000 ->
     row_at df model (round_q (Xc model - 0.01) 2) r_older ->
     get_age model df = inr (0%Z, py_int (age r_older))) /\
  (forall r_younger r_self,
     Qabs (Xc model - mn) < 1#10000 ->
     row_at df model (round_q (Xc model + 0.01) 2) r_younger ->
     row_at df model (round_q (Xc model) 2) r_self ->
     get_age model df =
       inr (py_int (age r_younger),
            (py_int (age r_self) + (py_int (age r_self) - py_int (age r_younger)))%Z)) /\
  (forall r_younger r_older,
     ~ Qabs (Xc model - mx) < 1#10000 ->
     ~ Qabs (Xc model - mn) < 1#10000 ->
     row_at df model (round_q (Xc model + 0.01) 2) r_younger ->
     row_at df model (round_q (Xc model - 0.01) 2) r_older ->
     get_age model df = inr (py_int (age r_younger), py_int (age r_older))).
Proof.
  destruct (py_max_greatest _ _ Hmx_in Hmx) as [mx' [Emx Qmx]].
  destruct (py_min_least _ _ Hmn_in Hmn) as [mn' [Emn Qmn]].
  unfold get_age. rewrite Emx. cbn [bind].
  rewrite (near_compat _ _ _ Qmx).
  split; [|split].
  - intros r Hnear Hr. apply qlt_spec in Hnear. rewrite Hnear.
    rewrite (loc_age_row_at _ _ _ _ Hr). reflexivity.
  - intros ry rs Hnear Hy Hs.
    assert (Hfar : qlt (Qabs (Xc model - mx)) (1#10000) = false).
    { apply qlt_false. apply Qnot_lt_le. intro H.
      apply Qabs_diff_Qlt_condition in H. apply Qabs_diff_Qlt_condition in Hnear.
      lra. }
    apply qlt_spec in Hnear. rewrite Hfar, Emn. cbn [bind].
    rewrite (near_compat _ _ _ Qmn), Hnear.
    rewrite (loc_age_row_at _ _ _ _ Hy). cbn [bind].
    rewrite (loc_age_row_at _ _ _ _ Hs). cbn [bind ret].
    unfold ret. f_equal. f_equal. lia.
  - intros ry ro Hfar1 Hfar2 Hy Ho.
    assert (E1 : qlt (Qabs (Xc model - mx)) (1#10000) = false).
    { destruct (qlt (Qabs (Xc model - mx)) (1#10000)) eqn:E; [|reflexivity].
      apply qlt_spec in E. contradiction. }
    assert (E2 : qlt (Qabs (Xc model - mn)) (1#10000) = false).
    { destruct (qlt (Qabs (Xc model - mn)) (1#10000)) eqn:E; [|reflexivity].
      apply qlt_spec in E. contradiction. }
    rewrite E1, Emn. cbn [bind]. rewrite (near_compat _ _ _ Qmn), E2.
    rewrite (loc_age_row_at _ _ _ _ Hy). cbn [bind].
    rewrite (loc_age_row_at _ _ _ _ Ho). reflexivity.
Qed.

Lemma get_age_bracket_witness :
  get_age (mk_model 0.69) grid3 = inr (10%Z, 30%Z).
Proof.
  refine (proj2 (proj2 (get_age_bracket (mk_model 0.69) grid3 0.70 0.68 _ _ _ _ _))
            (mk_grid 0.70 10) (mk_grid 0.68 30) _ _ _ _).
  - vm_compute. auto.
  - intros x Hx. vm_compute in Hx.
    destruct Hx as [<-|[<-|[<-|[]]]]; apply Qle_bool_iff; reflexivity.
  - vm_compute. auto.
  - intros x Hx. vm_compute in Hx.
    destruct Hx as [<-|[<-|[<-|[]]]]; apply Qle_bool_iff; reflexivity.
  - apply Qle_bool_iff. reflexivity.
  - intro H. apply qlt_spec in H. vm_compute in H. discriminate.
  - intro H. apply qlt_spec in H. vm_compute in H. discriminate.
  - vm_compute. reflexivity.
  - vm_compute. reflexivity.
Defined.

Lemma loc_age_not_single df model xc :
  length (filter (coords_match model xc) df) <> 1%nat ->
  loc_age df model xc = inl TypeError.
Proof.
  unfold loc_age. destruct (filter (coords_match model xc) df) as [|r [|r' l]];
    simpl; intro H; [reflexivity | lia | reflexivity].
Qed.

Lemma loc_age_raises df model xc e :
  loc_age df model xc = inl e -> e = TypeError.
Proof.
  unfold loc_age. destruct (filter (coords_match model xc) df) as [|r [|r' l]];
    unfold ret, raise; intro H; congruence.
Qed.

(** C5.  Whenever a lookup made by [get_age] on the full coordinate tuple
    matches zero or several rows, [get_age] raises (a [TypeError] from
    [int()] of the selected Series) instead of returning ages, and the
    exception propagates out of [enforce_binary_constraints], ending the
    run. *)
Theorem get_age_lookup_fatal (model : theo_row) (df : list grid_row) (mx : Q)
    (Hmx : py_max (unique_xc model df) = inr mx) :
  (Qabs (Xc model - mx) < 1#10000 ->
   length (filter (coords_match model (round_q (Xc model - 0.01) 2)) df) <> 1%nat ->
   get_age model df = inl TypeError) /\
  (forall mn,
   ~ Qabs (Xc model - mx) < 1#10000 ->
   py_min (unique_xc model df) = inr mn ->
   Qabs (Xc model - mn) < 1#10000 ->
   (length (filter (coords_match model (round_q (Xc model + 0.01) 2)) df) <> 1%nat \/
    length (filter (coords_match model (round_q (Xc model) 2)) df) <> 1%nat) ->
   get_age model df = inl TypeError) /\
  (forall mn,
   ~ Qabs (Xc model - mx) < 1#10000 ->
   py_min (unique_xc model df) = inr mn ->
   ~ Qabs (Xc model - mn) < 1#10000 ->
   (length (filter (coords_match model (round_q (Xc model + 0.01) 2)) df) <> 1%nat \/
    length (filter (coords_match model (round_q (Xc model - 0.01) 2)) df) <> 1%nat) ->
   get_age model df = inl TypeError) /\
  (forall log10 sc summary nsigma name,
   get_age model df = inl TypeError ->
   enforce_binary_constraints log10 sc summary nsigma df (name, model) = inl TypeError).
Proof.
  split; [|split; [|split]];
    [| | | intros log10 sc summary nsigma name Hage;
           unfold enforce_binary_constraints; cbv beta iota;
           rewrite Hage; reflexivity];
    unfold get_age; rewrite Hmx; cbn [bind].
  - intros Hnear Hlen. apply qlt_spec in Hnear. rewrite Hnear.
    rewrite (loc_age_not_single _ _ _ Hlen). reflexivity.
  - intros mn Hfar Hmn Hnear Hlen.
    destruct (qlt (Qabs (Xc model - mx)) (1#10000)) eqn:E1.
    { apply qlt_spec in E1. contradiction. }
    rewrite Hmn. cbn [bind]. apply qlt_spec in Hnear. rewrite Hnear.
    destruct Hlen as [Hlen|Hlen].
    + rewrite (loc_age_not_single _ _ _ Hlen). reflexivity.
    + destruct (loc_age df model (round_q (Xc model + 0.01) 2)) eqn:Ey.
      { apply loc_age_raises in Ey. subst. reflexivity. }
      cbn [bind]. rewrite (loc_age_not_single _ _ _ Hlen). reflexivity.
  - intros mn Hfar Hmn Hfar' Hlen.
    destruct (qlt (Qabs (Xc model - mx)) (1#10000)) eqn:E1.
    { apply qlt_spec in E1. contradiction. }
    rewrite Hmn. cbn [bind].
    destruct (qlt (Qabs (Xc model - mn)) (1#10000)) eqn:E2.
    { apply qlt_spec in E2. contradiction. }
    destruct Hlen as [Hlen|Hlen].
    + rewrite (loc_age_not_single _ _ _ Hlen). reflexivity.
    + destruct (loc_age df model (round_q (Xc model + 0.01) 2)) eqn:Ey.
      { apply loc_age_raises in Ey. subst. reflexivity. }
      cbn [bind]. rewrite (loc_age_not_single _ _ _ Hlen). reflexivity.
Qed.

Definition grid_dup : list grid_row := grid3 ++ [mk_grid 0.69 21].

Definition grid_gap : list grid_row := [mk_grid 0.70 10; mk_grid 0.68 30].

(** C5, as the spec states it: a lookup matching several rows (the two
    rows at Xc = 0.69 of [grid_dup]) or none (the missing Xc = 0.69 row of
    [grid_gap]) does not raise a [GridLookupError], an exception the code
    never defines: what [get_age] raises is pandas' [TypeError] from
    [int()] of a Series whose length is not one. *)
Lemma get_age_lookup_error_counterexample :
  get_age (mk_model 0.70) grid_dup = inl TypeError /\
  get_age (mk_model 0.70) grid_gap = inl TypeError.
Proof. split; vm_compute; reflexivity. Qed.

Lemma get_age_lookup_fatal_witness :
  get_age (mk_model 0.70) grid_dup = inl TypeError.
Proof.
  refine (proj1 (get_age_lookup_fatal (mk_model 0.70) grid_dup 0.70 _) _ _).
  - vm_compute. reflexivity.
  - apply qlt_spec. vm_compute. reflexivity.
  - vm_compute. discriminate.
Defined.

(** The test the loop of [enforce_binary_constraints] makes on one track
    before returning [None]. *)
Definition track_passes (log10 : Q -> xreal) (sc : companion) (nsigma : Q)
    (M2_min M2_max : xreal) (min_age max_age : Z) (kt : Q * track) : bool :=
  let (key_Mass, df) := kt in
  negb (mass_out M2_min M2_max key_Mass)
  && negb (Nat.eqb (length (age_window min_age max_age df)) 0)
  && Nat.ltb 0 (length (companion_box log10 sc nsigma (age_window min_age max_age df))).

Lemma scan_tracks_existsb log10 sc nsigma M2_min M2_max min_age max_age d :
  scan_tracks log10 sc nsigma M2_min M2_max min_age max_age d
  = existsb (track_passes log10 sc nsigma M2_min M2_max min_age max_age) d.
Proof.
  induction d as [|[k t] d IH]; simpl; [reflexivity|].
  destruct (mass_out M2_min M2_max k); simpl; [exact IH|].
  destruct (Nat.eqb (length (age_window min_age max_age t)) 0); simpl; [exact IH|].
  destruct (Nat.ltb 0 _); simpl; [reflexivity|exact IH].
Qed.

Lemma existsb_perm {A} (f : A -> bool) (l1 l2 : list A) :
  Permutation l1 l2 -> existsb f l1 = existsb f l2.
Proof.
  induction 1; simpl.
  - reflexivity.
  - now rewrite IHPermutation.
  - rewrite !orb_assoc, (orb_comm (f y)). reflexivity.
  - congruence.
Qed.

(** [enforce_binary_constraints] once the ages are known. *)
Lemma enforce_unfold log10 sc summary nsigma g name model min_age max_age :
  get_age model g = inr (min_age, max_age) ->
  enforce_binary_constraints log10 sc summary nsigma g (name, model) =
  (d <- dict_get summary (Z_ model) ;;
   if existsb (track_passes log10 sc nsigma (fst (mass_range model sc))
                 (snd (mass_range model sc)) min_age max_age) d
   then ret None else ret (Some name)).
Proof.
  intro H. unfold enforce_binary_constraints. cbv beta iota. rewrite H. cbn [bind].
  destruct (mass_range model sc) as [lo hi]. simpl.
  destruct (dict_get summary (Z_ model)); cbn [bind]; [reflexivity|].
  now rewrite scan_tracks_existsb.
Qed.

(** C3.  Once the age bracket is known: if some track of the dict of the
    model's [Z] has rows in the age window and in the companion box, with
    its mass in range, the model stays ([None]), whatever the tracks after
    it; and reordering the mass tracks never changes the outcome. *)
Theorem enforce_companion_search (log10 : Q -> xreal) (sc : companion)
    (nsigma : Q) (g : list grid_row) (name : Z) (model : theo_row)
    (min_age max_age : Z)
    (Hage : get_age model g = inr (min_age, max_age)) :
  (forall summary pre k t post,
     dict_get summary (Z_ model) = inr (pre ++ (k, t) :: post) ->
     track_passes log10 sc nsigma (fst (mass_range model sc))
       (snd (mass_range model sc)) min_age max_age (k, t) = true ->
     enforce_binary_constraints log10 sc summary nsigma g (name, model) = inr None /\
     (forall post',
        scan_tracks log10 sc nsigma (fst (mass_range model sc))
          (snd (mass_range model sc)) min_age max_age (pre ++ (k, t) :: post') = true)) /\
  (forall summary1 summary2 d1 d2,
     dict_get summary1 (Z_ model) = inr d1 ->
     dict_get summary2 (Z_ model) = inr d2 ->
     Permutation d1 d2 ->
     enforce_binary_constraints log10 sc summary1 nsigma g (name, model) =
     enforce_binary_constraints log10 sc summary2 nsigma g (name, model)).
Proof.
  split.
  - intros summary pre k t post Hd Hp.
    assert (Hall : forall post',
      scan_tracks log10 sc nsigma (fst (mass_range model sc))
        (snd (mass_range model sc)) min_age max_age (pre ++ (k, t) :: post') = true).
    { intro post'. rewrite scan_tracks_existsb, existsb_app. cbn [existsb].
      rewrite Hp. now rewrite orb_true_r. }
    split; [|exact Hall].
    rewrite (enforce_unfold _ _ _ _ _ _ _ _ _ Hage).
    unfold isocloud_summary, isocloud_dict, track in *. rewrite Hd. cbn [bind].
    rewrite <- scan_tracks_existsb, Hall. reflexivity.
  - intros s1 s2 d1 d2 H1 H2 Hperm.
    rewrite !(enforce_unfold _ _ _ _ _ _ _ _ _ Hage).
    unfold isocloud_summary, isocloud_dict, track in *. rewrite H1, H2. cbn [bind].
    now rewrite (existsb_perm _ _ _ Hperm).
Qed.

Lemma enforce_companion_search_witness :
  enforce_binary_constraints log10_id comp_primary summary2 3 grid3 (7%Z, mk_model 0.69)
    = inr None /\
  enforce_binary_constraints log10_id comp_primary summary2 3 grid3 (7%Z, mk_model 0.69)
    = enforce_binary_constraints log10_id comp_primary [(0.014, rev dict2)] 3 grid3
        (7%Z, mk_model 0.69).
Proof.
  assert (Hage : get_age (mk_model 0.69) grid3 = inr (10%Z, 30%Z))
    by (vm_compute; reflexivity).
  pose proof (enforce_companion_search log10_id comp_primary 3 grid3 7%Z
                (mk_model 0.69) 10%Z 30%Z Hage) as [HA HB].
  split.
  - refine (proj1 (HA summary2 [(2.5, [mk_iso 15 3; mk_iso 25 3])] 2.6
                    [mk_iso 15 3.95; mk_iso 25 3] [] _ _));
      vm_compute; reflexivity.
  - refine (HB summary2 [(0.014, rev dict2)] dict2 (rev dict2) _ _ _).
    + vm_compute. reflexivity.
    + vm_compute. reflexivity.
    + apply Permutation_rev.
Defined.

(** C4.  The companion mass range is
    [[round(M*(q-q_err),1), round(M*(q+q_err),1)]] when the primary
    pulsates and [[round(M/(q+q_err),1), round(M/(q-q_err),1)]] when the
    secondary does (for divisors that are not zero). *)
Theorem mass_range_formula (model : theo_row) (sc : companion) :
  (primary_pulsates sc = true ->
   mass_range model sc =
     (Fin (round_q (M model * (q sc - q_err sc)) 1),
      Fin (round_q (M model * (q sc + q_err sc)) 1))) /\
  (primary_pulsates sc = false ->
   ~ q sc + q_err sc == 0 -> ~ q sc - q_err sc == 0 ->
   mass_range model sc =
     (Fin (round_q (M model / (q sc + q_err sc)) 1),
      Fin (round_q (M model / (q sc - q_err sc)) 1))).
Proof.
  unfold mass_range. split.
  - intros ->. reflexivity.
  - intros -> H1 H2. unfold xdiv.
    destruct (Qeq_bool (q sc + q_err sc) 0) eqn:E1;
      [apply Qeq_bool_iff in E1; contradiction|].
    destruct (Qeq_bool (q sc - q_err sc) 0) eqn:E2;
      [apply Qeq_bool_iff in E2; contradiction|].
    reflexivity.
Qed.

Lemma mass_range_formula_witness :
  mass_range (mk_model 0.69) comp_primary =
    (Fin (round_q (5 * (0.5 - 0.05)) 1), Fin (round_q (5 * (0.5 + 0.05)) 1)) /\
  mass_range (mk_model 0.69) comp_secondary =
    (Fin (round_q (5 / (0.5 + 0.05)) 1), Fin (round_q (5 / (0.5 - 0.05)) 1)).
Proof.
  split.
  - exact (proj1 (mass_range_formula (mk_model 0.69) comp_primary) eq_refl).
  - refine (proj2 (mass_range_formula (mk_model 0.69) comp_secondary) eq_refl _ _);
      intro H; apply Qeq_bool_iff in H; vm_compute in H; discriminate.
Defined.

(** C8, as the spec states it: for [M = 5], [q = 0.5], [q_err = 0.05] the
    secondary-pulsates range is not [[4.55, 5.56]] (nor is the
    primary-pulsates range [[2.25, 2.75]]). *)
Lemma mass_ratio_example_counterexample :
  mass_range (mk_model 0.69) comp_secondary = (Fin (Qmake 91 10), Fin (Qmake 111 10)) /\
  ~ (Qmake 91 10 == 4.55) /\ ~ (Qmake 111 10 == 5.56) /\
  mass_range (mk_model 0.69) comp_primary = (Fin (Qmake 22 10), Fin (Qmake 28 10)) /\
  ~ (Qmake 22 10 == 2.25) /\ ~ (Qmake 28 10 == 2.75).
Proof.
  split; [vm_compute; reflexivity|].
  split; [intro H; apply Qeq_bool_iff in H; vm_compute in H; discriminate|].
  split; [intro H; apply Qeq_bool_iff in H; vm_compute in H; discriminate|].
  split; [vm_compute; reflexivity|].
  split; intro H; apply Qeq_bool_iff in H; vm_compute in H; discriminate.
Qed.

(** C8, as the code computes it: for a model of mass 5 and [q = 0.5],
    [q_err = 0.05], the bounds are [[2.2, 2.8]] when the primary pulsates
    ([2.25] and [2.75] rounded half to even) and [[9.1, 11.1]] when the
    secondary pulsates ([5/0.55] and [5/0.45] rounded). *)
Theorem mass_ratio_example (model : theo_row) (c : companion)
    (HM : M model = 5) (Hq : q c = 0.5) (Hqe : q_err c = 0.05) :
  (primary_pulsates c = true ->
   mass_range model c = (Fin (Qmake 22 10), Fin (Qmake 28 10))) /\
  (primary_pulsates c = false ->
   mass_range model c = (Fin (Qmake 91 10), Fin (Qmake 111 10))).
Proof.
  unfold mass_range. rewrite HM, Hq, Hqe.
  split; intros ->; vm_compute; reflexivity.
Qed.

Lemma mass_ratio_example_witness :
  mass_range (mk_model 0.69) comp_primary = (Fin (Qmake 22 10), Fin (Qmake 28 10)) /\
  mass_range (mk_model 0.69) comp_secondary = (Fin (Qmake 91 10), Fin (Qmake 111 10)).
Proof.
  split.
  - exact (proj1 (mass_ratio_example (mk_model 0.69) comp_primary eq_refl eq_refl eq_refl) eq_refl).
  - exact (proj2 (mass_ratio_example (mk_model 0.69) comp_secondary eq_refl eq_refl eq_refl) eq_refl).
Defined.

(** C6, as the spec states it: a companion row at [star_age = min_age] or
    [star_age = max_age] is not admitted into the age-restricted track. *)
Lemma age_window_bounds_counterexample :
  ~ In (mk_iso 10 4) (age_window 10 30 [mk_iso 10 4; mk_iso 30 4]) /\
  ~ In (mk_iso 30 4) (age_window 10 30 [mk_iso 10 4; mk_iso 30 4]).
Proof.
  vm_compute. split; intros [].
Qed.

(** C6, as the code does it: the age window keeps exactly the rows with
    [min_age < star_age < max_age]; both bounds are exclusive. *)
Theorem age_window_exclusive (min_age max_age : Z) (df : track) (r : iso_row) :
  In r (age_window min_age max_age df) <->
  In r df /\ inject_Z min_age < star_age r /\ star_age r < inject_Z max_age.
Proof.
  unfold age_window. rewrite filter_In, andb_true_iff, !qlt_spec. tauto.
Qed.

(** C9.  With a companion given but the isocloud summary or the
    spectroscopy grid missing, the run does not log and exit: line 39
    names [logger], which the module never defines or imports, so the
    call raises [NameError] (before any companion evaluation, and with no
    table written). *)
Theorem missing_inputs_name_error (log10 : Q -> xreal) (o : obs_row)
    (rest : list obs_row) (df : list (Z * theo_row)) (nsigma : Q) (sc : companion)
    (s : option isocloud_summary) (g : option (list grid_row)) :
  (s = None \/ g = None) ->
  spectro_constraint log10 (o :: rest) df nsigma (Some sc) s g = inl NameError.
Proof.
  intros [-> | ->]; unfold spectro_constraint; cbn [bind ret];
    [reflexivity | destruct s; reflexivity].
Qed.

Lemma missing_inputs_name_error_witness :
  spectro_constraint log10_id
    [{| Teff := 4.2; Teff_err := 0.1; ologg := 4; ologg_err := 0.1;
        ologL := 3; ologL_err := 0.1 |}]
    [(7%Z, mk_model 0.69)] 3 (Some comp_primary) None (Some grid3) = inl NameError.
Proof.
  apply missing_inputs_name_error. left. reflexivity.
Defined.

Lemma round_q_nonpos (x : Q) : x < 0 -> round_q x 1 <= 0.
Proof.
  intro Hx. unfold round_q. change (pow10 1) with 10%positive.
  set (y := x * inject_Z (Zpos 10)).
  assert (Hy : y < 0) by (unfold y; change (inject_Z (Zpos 10)) with (10#1); lra).
  assert (Hf : (Qfloor y < 0)%Z).
  { rewrite Zlt_Qlt. apply Qle_lt_trans with y; [apply Qfloor_le | exact Hy]. }
  assert (Hr : (round_half_even y <= 0)%Z).
  { unfold round_half_even.
    destruct (qlt _ (1#2)); [lia|]. destruct (qlt (1#2) _); [lia|].
    destruct (Z.even _); lia. }
  unfold Qle. simpl. lia.
Qed.

(** C10, as stated: with [q_err = q] in the secondary-pulsates
    configuration the computation does not fail: it returns a decision
    (here the model is dropped, the upper mass bound being +inf). *)
Lemma secondary_q_err_eq_q_counterexample :
  let c := {| q := 0.5; q_err := 0.5; primary_pulsates := false;
              cTeff := None; cTeff_err := 0; clogg := Some 4; clogg_err := 0.1;
              clogL := None; clogL_err := 0 |} in
  mass_range (mk_model 0.69) c = (Fin (Qmake 50 10), PInf) /\
  enforce_binary_constraints log10_id c summary2 3 grid3 (7%Z, mk_model 0.69)
    = inr (Some 7%Z).
Proof. split; vm_compute; reflexivity. Qed.

(** C10, as the code does it (secondary pulsates, [M > 0]):
    - with [q_err = q] the division by [q - q_err = 0] gives +inf (numpy
      float64 semantics), no exception: the upper bound never rejects a
      track;
    - with [q_err > q] (and [q + q_err > 0]) the upper bound is [<= 0]: every
      track of positive mass is out of range, and once the ages and the
      dict of the model's [Z] are found the model is always dropped. *)
Theorem secondary_mass_range_unguarded (model : theo_row) (sc : companion)
    (HM : 0 < M model) (Hsec : primary_pulsates sc = false) :
  (q_err sc == q sc ->
   snd (mass_range model sc) = PInf /\
   (forall k, xlt (snd (mass_range model sc)) (Fin k) = false)) /\
  (q sc < q_err sc ->
   (exists v, snd (mass_range model sc) = Fin v /\ v <= 0) /\
   (forall k, 0 < k -> mass_out (fst (mass_range model sc)) (snd (mass_range model sc)) k = true) /\
   (forall log10 summary nsigma g name min_age max_age d,
      get_age model g = inr (min_age, max_age) ->
      dict_get summary (Z_ model) = inr d ->
      Forall (fun kt => 0 < fst kt) d ->
      enforce_binary_constraints log10 sc summary nsigma g (name, model) = inr (Some name))).
Proof.
  assert (Hsnd : forall v, q sc < q_err sc -> v = M model / (q sc - q_err sc) ->
            snd (mass_range model sc) = Fin (round_q v 1) /\ round_q v 1 <= 0).
  { intros v Hlt ->. unfold mass_range. rewrite Hsec. simpl. unfold xdiv.
    destruct (Qeq_bool (q sc - q_err sc) 0) eqn:E.
    { apply Qeq_bool_iff in E. exfalso. lra. }
    split; [reflexivity|]. apply round_q_nonpos.
    assert (Hneg : q sc - q_err sc < 0) by lra.
    setoid_replace (M model / (q sc - q_err sc))
      with (- (M model / (q_err sc - q sc))) by (field; split; intro; lra).
    assert (0 < M model / (q_err sc - q sc)).
    { apply Qlt_shift_div_l; lra. }
    lra. }
  split.
  - intro Heq. unfold mass_range. rewrite Hsec. simpl. unfold xdiv.
    destruct (Qeq_bool (q sc - q_err sc) 0) eqn:E.
    2:{ exfalso. apply Qeq_bool_neq in E. apply E. lra. }
    destruct (qlt 0 (M model)) eqn:E2.
    2:{ apply qlt_false in E2. exfalso. lra. }
    split; [reflexivity|]. intro k. reflexivity.
  - intro Hlt. destruct (Hsnd _ Hlt eq_refl) as [Hs Hle].
    assert (Hout : forall k, 0 < k ->
              mass_out (fst (mass_range model sc)) (snd (mass_range model sc)) k = true).
    { intros k Hk. unfold mass_out. rewrite Hs. simpl.
      rewrite orb_true_iff. right. apply qlt_spec. lra. }
    split; [eauto|]. split; [exact Hout|].
    intros log10 summary nsigma g name min_age max_age d Hage Hd Hpos.
    rewrite (enforce_unfold _ _ _ _ _ _ _ _ _ Hage).
    unfold isocloud_summary, isocloud_dict, track in *. rewrite Hd. cbn [bind].
    replace (existsb _ d) with false; [reflexivity|].
    symmetry. clear Hd.
    induction Hpos as [|[k t] d' Hk _ IH]; [reflexivity|].
    cbn [existsb]. rewrite IH, orb_false_r. simpl in Hk.
    unfold track_passes. rewrite (Hout k Hk). reflexivity.
Qed.

Lemma secondary_mass_range_unguarded_witness :
  let c := {| q := 0.5; q_err := 0.6; primary_pulsates := false;
              cTeff := None; cTeff_err := 0; clogg := Some 4; clogg_err := 0.1;
              clogL := None; clogL_err := 0 |} in
  enforce_binary_constraints log10_id c summary2 3 grid3 (7%Z, mk_model 0.69)
    = inr (Some 7%Z) /\
  snd (mass_range (mk_model 0.69)
         {| q := 0.5; q_err := 0.5; primary_pulsates := false;
            cTeff := None; cTeff_err := 0; clogg := Some 4; clogg_err := 0.1;
            clogL := None; clogL_err := 0 |}) = PInf.
Proof.
  intro c. split.
  - refine (proj2 (proj2 (proj2 (secondary_mass_range_unguarded (mk_model 0.69) c _ _) _))
              log10_id summary2 3 grid3 7%Z 10%Z 30%Z dict2 _ _ _).
    + apply qlt_spec. reflexivity.
    + reflexivity.
    + apply qlt_spec. reflexivity.
    + vm_compute. reflexivity.
    + vm_compute. reflexivity.
    + repeat constructor.
  - refine (proj1 (proj1 (secondary_mass_range_unguarded (mk_model 0.69) _ _ _) _)).
    + apply qlt_spec. reflexivity.
    + reflexivity.
    + reflexivity.
Defined.

(* ------------------------------------------------------------------ *)
(** ** Further properties of the filters *)

(** The six selections of lines 30-35 as one row predicate. *)
Definition in_box (log10 : Q -> xreal) (o : obs_row) (nsigma : Q) (ir : Z * theo_row) : bool :=
  xlt (Fin (logTeff (snd ir))) (log10 (Teff o + nsigma * Teff_err o))
  && (xlt (log10 (Teff o - nsigma * Teff_err o)) (Fin (logTeff (snd ir)))
  && (qlt (logg (snd ir)) (ologg o + nsigma * ologg_err o)
  && (qlt (ologg o - nsigma * ologg_err o) (logg (snd ir))
  && (qlt (logL (snd ir)) (ologL o + nsigma * ologL_err o)
  && qlt (ologL o - nsigma * ologL_err o) (logL (snd ir)))))).

Lemma primary_filter_as_filter log10 o nsigma df :
  primary_filter log10 o nsigma df = filter (in_box log10 o nsigma) df.
Proof. unfold primary_filter. rewrite !filter_filter. reflexivity. Qed.

Lemma filter_idem {A} (p : A -> bool) (l : list A) : filter p (filter p l) = filter p l.
Proof.
  rewrite filter_filter. apply filter_ext. intro x. apply andb_diag.
Qed.

Lemma filter_comm {A} (p k : A -> bool) (l : list A) :
  filter p (filter k l) = filter k (filter p l).
Proof.
  rewrite !filter_filter. apply filter_ext. intro x. apply andb_comm.
Qed.

(** X1.  Applying the primary error box a second time changes nothing. *)
Theorem primary_filter_idempotent (log10 : Q -> xreal) (o : obs_row) (nsigma : Q)
    (df : list (Z * theo_row)) :
  primary_filter log10 o nsigma (primary_filter log10 o nsigma df)
  = primary_filter log10 o nsigma df.
Proof. rewrite !primary_filter_as_filter. apply filter_idem. Qed.

(** X2.  Two error boxes (other observations or other [nsigma]) applied in
    either order give the same table, row order included. *)
Theorem primary_filter_commute (log10 : Q -> xreal) (o1 o2 : obs_row) (n1 n2 : Q)
    (df : list (Z * theo_row)) :
  primary_filter log10 o1 n1 (primary_filter log10 o2 n2 df)
  = primary_filter log10 o2 n2 (primary_filter log10 o1 n1 df).
Proof. rewrite !primary_filter_as_filter. apply filter_comm. Qed.

(** X3.  Widening the box keeps every row kept before: for
    [0 <= n1 <= n2], non-negative errors, a non-decreasing [log10] on
    positive arguments, and a lower temperature bound [Teff - n2*Teff_err]
    still positive. *)
Theorem primary_filter_mono_nsigma (log10 : Q -> xreal) (o : obs_row) (n1 n2 : Q)
    (df : list (Z * theo_row))
    (Hlo : forall a b x, 0 < a -> a <= b -> xlt (log10 b) x = true -> xlt (log10 a) x = true)
    (Hhi : forall a b x, 0 < a -> a <= b -> xlt x (log10 a) = true -> xlt x (log10 b) = true)
    (Hn1 : 0 <= n1) (Hn : n1 <= n2)
    (HeT : 0 <= Teff_err o) (Heg : 0 <= ologg_err o) (HeL : 0 <= ologL_err o)
    (Hpos : 0 < Teff o - n2 * Teff_err o) :
  forall x, In x (primary_filter log10 o n1 df) -> In x (primary_filter log10 o n2 df).
Proof.
  assert (HT : n1 * Teff_err o <= n2 * Teff_err o) by (apply Qmult_le_compat_r; assumption).
  assert (Hg : n1 * ologg_err o <= n2 * ologg_err o) by (apply Qmult_le_compat_r; assumption).
  assert (HL : n1 * ologL_err o <= n2 * ologL_err o) by (apply Qmult_le_compat_r; assumption).
  assert (H0 : 0 <= n1 * Teff_err o) by (apply Qmult_le_0_compat; assumption).
  intros [i r]. rewrite !primary_filter_as_filter, !filter_In. unfold in_box. cbn [snd].
  rewrite !andb_true_iff, !qlt_spec.
  intros [Hin [H1 [H2 [H3 [H4 [H5 H6]]]]]].
  split; [exact Hin|]. repeat split.
  - apply (Hhi (Teff o + n1 * Teff_err o)); [lra | lra | exact H1].
  - apply (Hlo _ (Teff o - n1 * Teff_err o)); [lra | lra | exact H2].
  - lra.
  - lra.
  - lra.
  - lra.
Qed.

Lemma log10_id_lo a b x : 0 < a -> a <= b -> xlt (log10_id b) x = true -> xlt (log10_id a) x = true.
Proof.
  intros _ Hab. destruct x; simpl; try discriminate; try reflexivity.
  rewrite !qlt_spec. intro. lra.
Qed.

Lemma log10_id_hi a b x : 0 < a -> a <= b -> xlt x (log10_id a) = true -> xlt x (log10_id b) = true.
Proof.
  intros _ Hab. destruct x; simpl; try discriminate; try reflexivity.
  rewrite !qlt_spec. intro. lra.
Qed.

Lemma primary_filter_mono_nsigma_witness :
  In (7%Z, mk_model 0.69) (primary_filter log10_id obs1 2 [(7%Z, mk_model 0.69)]) /\
  In (7%Z, mk_model 0.69) (primary_filter log10_id obs1 3 [(7%Z, mk_model 0.69)]).
Proof.
  assert (H2 : In (7%Z, mk_model 0.69) (primary_filter log10_id obs1 2 [(7%Z, mk_model 0.69)]))
    by (vm_compute; left; reflexivity).
  split; [exact H2|].
  refine (primary_filter_mono_nsigma log10_id obs1 2 3 [(7%Z, mk_model 0.69)]
            log10_id_lo log10_id_hi _ _ _ _ _ _ _ H2);
    apply Qle_bool_iff || apply qlt_spec; reflexivity.
Defined.

(** X5.  A companion row survives the box of lines 129-137 exactly when
    it is strictly inside the interval of every observable given in the
    companion dict; an observable set to [None] imposes nothing. *)
Theorem companion_box_spec (log10 : Q -> xreal) (sc : companion) (nsigma : Q)
    (df : track) (r : iso_row) :
  In r (companion_box log10 sc nsigma df) <->
  In r df /\
  match cTeff sc with
  | Some t => xlt (log10 (t - nsigma * cTeff_err sc)) (Fin (log_Teff r)) = true /\
              xlt (Fin (log_Teff r)) (log10 (t + nsigma * cTeff_err sc)) = true
  | None => True
  end /\
  match clogg sc with
  | Some g => g - nsigma * clogg_err sc < log_g r < g + nsigma * clogg_err sc
  | None => True
  end /\
  match clogL sc with
  | Some l => l - nsigma * clogL_err sc < log_L r < l + nsigma * clogL_err sc
  | None => True
  end.
Proof.
  unfold companion_box.
  destruct (cTeff sc), (clogg sc), (clogL sc); rewrite ?filter_In, ?qlt_spec; tauto.
Qed.

Lemma length_eqb0_false {A} (l : list A) : Nat.eqb (length l) 0 = false <-> l <> [].
Proof. destruct l; simpl; split; intro H; try congruence; try reflexivity; discriminate. Qed.

Lemma length_ltb0_true {A} (l : list A) : Nat.ltb 0 (length l) = true <-> l <> [].
Proof. destruct l; simpl; split; intro H; try congruence; try reflexivity; discriminate. Qed.

Lemma track_passes_spec log10 sc nsigma lo hi min_age max_age k t :
  track_passes log10 sc nsigma lo hi min_age max_age (k, t) = true <->
  mass_out lo hi k = false /\ age_window min_age max_age t <> [] /\
  companion_box log10 sc nsigma (age_window min_age max_age t) <> [].
Proof.
  unfold track_passes. rewrite !andb_true_iff, !negb_true_iff.
  rewrite length_eqb0_false, length_ltb0_true. tauto.
Qed.

(** X6.  Once the ages and the dict of the model's [Z] are found,
    [enforce_binary_constraints] keeps the model ([None]) exactly when
    some track of that dict has its mass in [[M2_min, M2_max]], rows
    strictly inside the age window, and among them rows inside the
    companion box; otherwise it returns the row's own label. *)
Theorem enforce_decision (log10 : Q -> xreal) (sc : companion)
    (summary : isocloud_summary) (nsigma : Q) (g : list grid_row) (name : Z)
    (model : theo_row) (min_age max_age : Z) (d : isocloud_dict)
    (Hage : get_age model g = inr (min_age, max_age))
    (Hd : dict_get summary (Z_ model) = inr d) :
  let ok := exists k t, In (k, t) d /\
              mass_out (fst (mass_range model sc)) (snd (mass_range model sc)) k = false /\
              age_window min_age max_age t <> [] /\
              companion_box log10 sc nsigma (age_window min_age max_age t) <> [] in
  (enforce_binary_constraints log10 sc summary nsigma g (name, model) = inr None <-> ok) /\
  (enforce_binary_constraints log10 sc summary nsigma g (name, model) = inr (Some name)
     <-> ~ ok).
Proof.
  intro ok.
  assert (Hex : existsb (track_passes log10 sc nsigma (fst (mass_range model sc))
                   (snd (mass_range model sc)) min_age max_age) d = true <-> ok).
  { rewrite existsb_exists. split.
    - intros [[k t] [Hin Hp]]. apply track_passes_spec in Hp. exists k, t. tauto.
    - intros (k & t & Hin & Hp). exists (k, t). split; [exact Hin|].
      apply track_passes_spec. exact Hp. }
  rewrite (enforce_unfold _ _ _ _ _ _ _ _ _ Hage).
  unfold isocloud_summary, isocloud_dict, track in *. rewrite Hd. cbn [bind].
  destruct (existsb _ d) eqn:E; unfold ret.
  - split; split; intro H; try reflexivity.
    + apply Hex. reflexivity.
    + discriminate.
    + exfalso. apply H, Hex. reflexivity.
  - split; split; intro H; try reflexivity.
    + discriminate.
    + apply Hex in H. discriminate.
    + intro Hok. apply Hex in Hok. discriminate.
Qed.

Lemma enforce_decision_witness :
  enforce_binary_constraints log10_id comp_primary summary2 3 grid3 (7%Z, mk_model 0.69)
    = inr None.
Proof.
  refine (proj2 (proj1 (enforce_decision log10_id comp_primary summary2 3 grid3 7%Z
                          (mk_model 0.69) 10%Z 30%Z dict2 _ _))
            (ex_intro _ 2.6 (ex_intro _ [mk_iso 15 3.95; mk_iso 25 3] _))).
  - vm_compute. reflexivity.
  - vm_compute. reflexivity.
  - split; [right; left; reflexivity|]. vm_compute.
    split; [reflexivity|]. split; discriminate.
Defined.

Lemma dict_get_missing {A} (d : list (Q * A)) (k : Q) :
  (forall k' v, In (k', v) d -> ~ k' == k) -> dict_get d k = inl KeyError.
Proof.
  induction d as [|[k' v] d IH]; intro H; simpl; [reflexivity|].
  destruct (Qeq_bool k' k) eqn:E.
  - apply Qeq_bool_iff in E. exfalso. apply (H k' v); [now left | exact E].
  - apply IH. intros k'' v' Hin. apply (H k'' v'). now right.
Qed.

(** X7.  The isocloud summary is indexed by the model's [Z] itself: when
    no key of the summary equals it (even if one is within [np.isclose] of
    it, as the [get_age] lookups would accept), [enforce_binary_constraints]
    raises [KeyError] once the ages are found. *)
Theorem enforce_missing_metallicity (log10 : Q -> xreal) (sc : companion)
    (summary : isocloud_summary) (nsigma : Q) (g : list grid_row) (name : Z)
    (model : theo_row) (min_age max_age : Z)
    (Hage : get_age model g = inr (min_age, max_age))
    (Hz : forall k v, In (k, v) summary -> ~ k == Z_ model) :
  enforce_binary_constraints log10 sc summary nsigma g (name, model) = inl KeyError.
Proof.
  rewrite (enforce_unfold _ _ _ _ _ _ _ _ _ Hage).
  unfold isocloud_summary, isocloud_dict, track in *.
  rewrite (dict_get_missing _ _ Hz). reflexivity.
Qed.

Lemma enforce_missing_metallicity_witness :
  enforce_binary_constraints log10_id comp_primary [(0.01400001, dict2)] 3 grid3
    (7%Z, mk_model 0.69) = inl KeyError /\
  isclose 0.01400001 0.014 = true.
Proof.
  split; [|vm_compute; reflexivity].
  apply (enforce_missing_metallicity _ _ _ _ _ _ _ 10%Z 30%Z).
  - vm_compute. reflexivity.
  - intros k v [H|[]]. injection H as <- _. intro E.
    apply Qeq_bool_iff in E. vm_compute in E. discriminate.
Defined.

(** X8.  When no row of the age grid has a [Z] close to the model's,
    [max()] of the empty [Xc] list raises [ValueError], in [get_age] and
    hence in [enforce_binary_constraints]. *)
Theorem get_age_no_metallicity (log10 : Q -> xreal) (sc : companion)
    (summary : isocloud_summary) (nsigma : Q) (g : list grid_row) (name : Z)
    (model : theo_row)
    (Hz : forall r, In r g -> isclose (gZ r) (Z_ model) = false) :
  get_age model g = inl ValueError /\
  enforce_binary_constraints log10 sc summary nsigma g (name, model) = inl ValueError.
Proof.
  assert (Hu : unique_xc model g = []).
  { unfold unique_xc. induction g as [|r g IH]; simpl; [reflexivity|].
    rewrite (Hz r (or_introl eq_refl)). apply IH.
    intros r' Hr'. apply Hz. now right. }
  assert (Hg : get_age model g = inl ValueError).
  { unfold get_age. rewrite Hu. reflexivity. }
  split; [exact Hg|].
  unfold enforce_binary_constraints. cbv beta iota. rewrite Hg. reflexivity.
Qed.

Definition model_Z02 : theo_row :=
  {| Z_ := 0.02; M := 5; logD := 1; aov := 0; fov := 0.01; Xc := 0.69;
     logTeff := 4.2; logg := 4; logL := 3; meritValue := 1 |}.

Lemma get_age_no_metallicity_witness :
  get_age model_Z02 grid3 = inl ValueError.
Proof.
  assert (Hz : forall r, In r grid3 -> isclose (gZ r) (Z_ model_Z02) = false).
  { intros r [<-|[<-|[<-|[]]]]; vm_compute; reflexivity. }
  exact (proj1 (get_age_no_metallicity log10_id comp_primary summary2 3 grid3 7%Z
                  model_Z02 Hz)).
Defined.

Lemma apply_rows_spec (f : Z * theo_row -> res (option Z)) df drops :
  apply_rows f df = inr drops -> Forall2 (fun r d => f r = inr d) df drops.
Proof.
  revert drops. induction df as [|r df IH]; intros drops H; simpl in H.
  - injection H as <-. constructor.
  - apply bind_inr in H as [x [Hx H]]. apply bind_inr in H as [xs [Hxs H]].
    injection H as <-. constructor; [exact Hx | exact (IH _ Hxs)].
Qed.

Lemma drop_all_spec (drops : list (option Z)) (df out : list (Z * theo_row)) :
  drop_all drops df = inr out ->
  forall x, In x out <-> In x df /\ ~ In (Some (fst x)) drops.
Proof.
  revert df. induction drops as [|[i|] drops IH]; intros df H x; simpl in H.
  - injection H as <-. simpl. tauto.
  - apply bind_inr in H as [df' [Hd Hr]]. unfold drop_label in Hd.
    destruct existsb; [|discriminate]. injection Hd as <-.
    rewrite (IH _ Hr x), filter_In, negb_true_iff, Z.eqb_neq. simpl.
    split.
    + intros [[Hin Hne] Hn]. split; [exact Hin|]. intros [E|E]; [congruence | tauto].
    + intros [Hin Hn]. split; [split; [exact Hin|] | tauto]. intro E. apply Hn. left. congruence.
  - rewrite (IH _ H x). simpl. split; intros [A B]; split; auto.
    + intros [E|E]; [discriminate | tauto].
Qed.

Lemma enforce_label log10 sc summary nsigma g name model j :
  enforce_binary_constraints log10 sc summary nsigma g (name, model) = inr (Some j) -> j = name.
Proof.
  unfold enforce_binary_constraints. cbv beta iota.
  destruct (get_age model g) as [e|[mn mx]]; cbn [bind]; [discriminate|].
  destruct (mass_range model sc) as [lo hi].
  destruct (dict_get summary (Z_ model)); cbn [bind]; [discriminate|].
  destruct scan_tracks; unfold ret; intro H; injection H; congruence.
Qed.

Lemma Forall2_in_left {A B} (R : A -> B -> Prop) l1 l2 x :
  Forall2 R l1 l2 -> In x l1 -> exists y, In y l2 /\ R x y.
Proof.
  induction 1; simpl; [intros []|].
  intros [<-|Hin]; [eauto|]. destruct (IHForall2 Hin) as [z [Hz Rz]]. eauto.
Qed.

Lemma Forall2_in_right {A B} (R : A -> B -> Prop) l1 l2 y :
  Forall2 R l1 l2 -> In y l2 -> exists x, In x l1 /\ R x y.
Proof.
  induction 1; simpl; [intros []|].
  intros [<-|Hin]; [eauto|]. destruct (IHForall2 Hin) as [z [Hz Rz]]. eauto.
Qed.

Lemma NoDup_map_eq {A B} (f : A -> B) (l : list A) x y :
  NoDup (map f l) -> In x l -> In y l -> f x = f y -> x = y.
Proof.
  induction l as [|a l IH]; simpl; [tauto|].
  intros Hnd Hx Hy E. inversion Hnd as [|? ? Hna Hnd']; subst.
  destruct Hx as [<-|Hx], Hy as [<-|Hy]; auto.
  - exfalso. apply Hna. rewrite E. now apply in_map.
  - exfalso. apply Hna. rewrite <- E. now apply in_map.
Qed.

(** X9.  With a companion, every row written is a row of the primary-box
    table such that every row of that table with the same index label was
    kept by [enforce_binary_constraints] ([drop] removes a label, so a
    kept row sharing its label with a rejected one is removed as well).
    When the labels are distinct, the rows written are exactly those of
    the primary-box table that [enforce_binary_constraints] keeps. *)
Theorem companion_survivors (log10 : Q -> xreal) (o : obs_row) (rest : list obs_row)
    (df : list (Z * theo_row)) (nsigma : Q) (sc : companion)
    (s : isocloud_summary) (g : list grid_row) (out : list (Z * theo_row))
    (H : spectro_constraint log10 (o :: rest) df nsigma (Some sc) (Some s) (Some g)
         = inr out) :
  (forall x, In x out ->
     In x (primary_filter log10 o nsigma df) /\
     forall y, In y (primary_filter log10 o nsigma df) -> fst y = fst x ->
       enforce_binary_constraints log10 sc s nsigma g y = inr None) /\
  (NoDup (map fst (primary_filter log10 o nsigma df)) ->
   forall x, In x out <->
     In x (primary_filter log10 o nsigma df) /\
     enforce_binary_constraints log10 sc s nsigma g x = inr None).
Proof.
  unfold spectro_constraint in H. cbn [bind ret] in H.
  set (df1 := primary_filter log10 o nsigma df) in *.
  set (f := enforce_binary_constraints log10 sc s nsigma g) in *.
  destruct df1 as [|r0 l0] eqn:Hdf1; [discriminate|]. rewrite <- Hdf1 in H |- *.
  apply bind_inr in H as [drops [Hap Hdr]].
  apply apply_rows_spec in Hap.
  pose proof (drop_all_spec _ _ _ Hdr) as Hout.
  assert (Part1 : forall x, In x out ->
     In x df1 /\ forall y, In y df1 -> fst y = fst x -> f y = inr None).
  { intros x Hx. apply Hout in Hx as [Hx Hn]. split; [exact Hx|].
    intros y Hy E. destruct (Forall2_in_left _ _ _ _ Hap Hy) as [[j|] [Hj Hf]];
      [|exact Hf].
    exfalso. apply Hn. destruct y as [ny my].
    apply enforce_label in Hf. simpl in E. subst. exact Hj. }
  split; [exact Part1|].
  intros Hnd x. split.
  - intro Hx. destruct (Part1 x Hx) as [Hin Hall]. split; [exact Hin|].
    exact (Hall x Hin eq_refl).
  - intros [Hin Hf]. apply Hout. split; [exact Hin|].
    intro Hj. destruct (Forall2_in_right _ _ _ _ Hap Hj) as [y [Hy Hfy]].
    assert (Hl : fst y = fst x).
    { destruct y as [ny my]. symmetry. exact (enforce_label _ _ _ _ _ _ _ _ Hfy). }
    rewrite (NoDup_map_eq _ _ _ _ Hnd Hy Hin Hl) in Hfy. congruence.
Qed.

Lemma companion_survivors_witness :
  In (7%Z, mk_model 0.69)
    (primary_filter log10_id obs1 3 [(7%Z, mk_model 0.69); (8%Z, mk_model 0.68)]) /\
  enforce_binary_constraints log10_id comp_primary summary2 3 grid3 (7%Z, mk_model 0.69)
    = inr None.
Proof.
  assert (H : spectro_constraint log10_id [obs1]
    [(7%Z, mk_model 0.69); (8%Z, mk_model 0.68)] 3 (Some comp_primary)
    (Some summary2) (Some grid3) = inr [(7%Z, mk_model 0.69)])
    by (vm_compute; reflexivity).
  destruct (companion_survivors log10_id obs1 [] _ 3 comp_primary summary2 grid3 _ H)
    as [P1 P2].
  assert (Hnd : NoDup (map fst (primary_filter log10_id obs1 3
                  [(7%Z, mk_model 0.69); (8%Z, mk_model 0.68)]))).
  { vm_compute. constructor; [intros [E|[]]; discriminate|].
    constructor; [intros []|constructor]. }
  exact (proj1 (P2 Hnd (7%Z, mk_model 0.69)) (or_introl eq_refl)).
Defined.

Lemma round_half_even_mono (y1 y2 : Q) :
  y1 <= y2 -> (round_half_even y1 <= round_half_even y2)%Z.
Proof.
  intro H. pose proof (Qfloor_resp_le _ _ H) as Hf. unfold round_half_even.
  destruct (Z.lt_ge_cases (Qfloor y1) (Qfloor y2)) as [Hlt|Hge].
  - repeat match goal with |- context [if ?b then _ else _] => destruct b end; lia.
  - assert (E : Qfloor y2 = Qfloor y1) by lia. rewrite E.
    set (f := Qfloor y1) in *.
    repeat match goal with |- context [if ?b then _ else _] => destruct b eqn:? end;
    repeat match goal with
           | Hq : qlt _ _ = true |- _ => apply qlt_spec in Hq
           | Hq : qlt _ _ = false |- _ => apply qlt_false in Hq
           end;
    first [lia | exfalso; lra].
Qed.

Lemma round_q1_mono (x y : Q) : x <= y -> round_q x 1 <= round_q y 1.
Proof.
  intro H. unfold round_q. change (pow10 1) with 10%positive.
  assert (Hm : x * inject_Z (Zpos 10) <= y * inject_Z (Zpos 10)).
  { apply Qmult_le_compat_r; [exact H|]. apply Qle_bool_iff. reflexivity. }
  pose proof (round_half_even_mono _ _ Hm). unfold Qle. simpl. lia.
Qed.

(** X10.  For a non-negative model mass and [q_err >= 0] the companion
    mass range is a finite interval with [M2_min <= M2_max]: always when
    the primary pulsates, and when the secondary pulsates provided
    [q_err < q]. *)
Theorem mass_range_ordered (model : theo_row) (sc : companion)
    (HM : 0 <= M model) (He : 0 <= q_err sc) :
  (primary_pulsates sc = true ->
   exists lo hi, mass_range model sc = (Fin lo, Fin hi) /\ lo <= hi) /\
  (primary_pulsates sc = false -> q_err sc < q sc ->
   exists lo hi, mass_range model sc = (Fin lo, Fin hi) /\ lo <= hi).
Proof.
  assert (HMe : 0 <= M model * q_err sc) by (apply Qmult_le_0_compat; assumption).
  unfold mass_range. split.
  - intros ->. do 2 eexists. split; [reflexivity|].
    apply round_q1_mono. lra.
  - intros -> Hq. unfold xdiv.
    destruct (Qeq_bool (q sc + q_err sc) 0) eqn:E1.
    { apply Qeq_bool_iff in E1. exfalso. lra. }
    destruct (Qeq_bool (q sc - q_err sc) 0) eqn:E2.
    { apply Qeq_bool_iff in E2. exfalso. lra. }
    do 2 eexists. split; [reflexivity|]. apply round_q1_mono.
    set (X := M model / (q sc + q_err sc)).
    assert (HX : 0 <= X).
    { unfold X. apply Qle_shift_div_l; lra. }
    assert (HXe : 0 <= X * q_err sc) by (apply Qmult_le_0_compat; assumption).
    assert (HXq : X * (q sc + q_err sc) == M model).
    { unfold X. field. intro. lra. }
    apply Qle_shift_div_l; [lra|]. lra.
Qed.

Lemma mass_range_ordered_witness :
  exists lo hi, mass_range (mk_model 0.69) comp_secondary = (Fin lo, Fin hi) /\ lo <= hi.
Proof.
  refine (proj2 (mass_range_ordered (mk_model 0.69) comp_secondary _ _) eq_refl _);
    apply Qle_bool_iff || apply qlt_spec; reflexivity.
Defined.

(* ------------------------------------------------------------------ *)
(** ** The output file name (line 50) and the checks of [pipeline.py] *)

Module Pipeline.

Import String(string, EmptyString, String, append, prefix).
Import String.StringSyntax.
Local Open Scope string_scope.

Lemma str_length_app (a b : string) :
  String.length (append a b) = (String.length a + String.length b)%nat.
Proof. induction a as [|x a IH]; simpl; [reflexivity|]. now rewrite IH. Qed.

(** [f'{nsigma}sigmaSpectro_{merit_values_file}'], [nsigma_repr] being
    the text of [nsigma]. *)
Definition output_file (nsigma_repr merit_values_file : string) : string :=
  append nsigma_repr (append "sigmaSpectro_" merit_values_file).

(** Python's [needle in hay] on strings: [needle] occurs in [hay]. *)
Fixpoint contains (needle hay : string) : bool :=
  prefix needle hay ||
  match hay with
  | EmptyString => false
  | String _ hay' => contains needle hay'
  end.

(** Lines 8-15: for each list of observables, the flag
    [match_obsAndTheory] is set when one of them contains the observed
    quantity's name; a list without one logs an error and calls
    [sys.exit()]. *)
Definition obs_list_matches (pf : string) (obs_list : list string) : bool :=
  fold_left (fun match_obsAndTheory obs =>
               if contains pf obs then true else match_obsAndTheory)
            obs_list false.

Inductive exit := SystemExit.

Fixpoint check_observables (periods_or_frequencies_observed : string)
    (observable_list : list (list string)) : exit + unit :=
  match observable_list with
  | [] => inr tt
  | obs_list :: rest =>
      if obs_list_matches periods_or_frequencies_observed obs_list
      then check_observables periods_or_frequencies_observed rest
      else inl SystemExit
  end.

(** Lines 17-23, over the keys of [config.fixed_parameters] in order. *)
Fixpoint fixed_loop (free_parameters : list string) (nested_grid_dir : string)
    (params : list string) : exit + string :=
  match params with
  | [] => inr nested_grid_dir
  | param :: params' =>
      let nested_grid_dir := append nested_grid_dir (append "_" param) in
      if existsb (String.eqb param) free_parameters then inl SystemExit
      else fixed_loop free_parameters nested_grid_dir params'
  end.

Definition check_fixed (fixed_parameters : option (list string))
    (free_parameters : list string) : exit + option string :=
  match fixed_parameters with
  | None => inr None
  | Some keys =>
      match fixed_loop free_parameters "Nested_grid_fix" keys with
      | inl e => inl e
      | inr d => inr (Some d)
      end
  end.

Lemma prefix_spec (n h : string) : prefix n h = true <-> exists b, h = append n b.
Proof.
  revert h. induction n as [|c n IH]; intro h.
  - split; [intros _; exists h; reflexivity | intros _; destruct h; reflexivity].
  - destruct h as [|c' h]; simpl.
    + split; [discriminate | intros [b E]; discriminate].
    + destruct (Ascii.ascii_dec c c') as [<-|Hne].
      * rewrite IH. split; intros [b E]; exists b; congruence.
      * split; [discriminate | intros [b E]; congruence].
Qed.

Lemma contains_spec (n h : string) :
  contains n h = true <-> exists a b, h = append a (append n b).
Proof.
  induction h as [|c h IH]; cbn [contains]; rewrite orb_true_iff, prefix_spec.
  - split.
    + intros [[b E]|H]; [|discriminate]. exists EmptyString, b. exact E.
    + intros [a [b E]]. left. destruct a; [exists b; exact E | discriminate].
  - rewrite IH. split.
    + intros [[b E]|[a [b E]]].
      * exists EmptyString, b. exact E.
      * exists (String c a), b. simpl. congruence.
    + intros [a [b E]]. destruct a as [|c' a].
      * left. exists b. exact E.
      * right. exists a, b. simpl in E. congruence.
Qed.

Lemma obs_list_matches_fold pf l m :
  fold_left (fun match_obsAndTheory obs =>
               if contains pf obs then true else match_obsAndTheory) l m
  = m || existsb (contains pf) l.
Proof.
  revert m. induction l as [|o l IH]; intro m; simpl.
  - now rewrite orb_false_r.
  - rewrite IH. destruct (contains pf o); simpl.
    + now rewrite orb_true_r.
    + reflexivity.
Qed.

(** X11.  The observable check of [pipeline.py] passes exactly when every
    list of observables has at least one name in which the observed
    quantity's name occurs as a substring; otherwise the script exits
    (in particular on an empty list of observables). *)
Theorem check_observables_spec (pf : string) (observable_list : list (list string)) :
  check_observables pf observable_list = inr tt <->
  Forall (fun obs_list => exists obs a b, In obs obs_list /\ obs = append a (append pf b))
         observable_list.
Proof.
  induction observable_list as [|l L IH]; simpl.
  - split; [constructor | reflexivity].
  - unfold obs_list_matches. rewrite obs_list_matches_fold. simpl.
    destruct (existsb (contains pf) l) eqn:E.
    + rewrite IH. split.
      * intro H. constructor; [|exact H].
        apply existsb_exists in E as [o [Hin Hc]]. apply contains_spec in Hc as [a [b ->]].
        exists (append a (append pf b)), a, b. auto.
      * intro H. inversion H. assumption.
    + split; [discriminate|]. intro H. inversion H as [|? ? Hl]; subst.
      destruct Hl as (o & a & b & Hin & ->). exfalso.
      assert (Hc : contains pf (append a (append pf b)) = true)
        by (apply contains_spec; eauto).
      assert (existsb (contains pf) l = true) by (apply existsb_exists; eauto).
      congruence.
Qed.

Lemma check_observables_spec_witness :
  check_observables "period"
    [["period"; "frequency"]; ["period-spacing"]] = inr tt.
Proof.
  apply check_observables_spec. constructor; [|constructor; [|constructor]].
  - exists "period", EmptyString, EmptyString. split; [now left | reflexivity].
  - exists "period-spacing", EmptyString, "-spacing".
    split; [now left | reflexivity].
Defined.

Lemma fixed_loop_spec free d keys :
  fixed_loop free d keys =
  if existsb (fun param => existsb (String.eqb param) free) keys then inl SystemExit
  else inr (fold_left (fun d param => append d (append "_" param)) keys d).
Proof.
  revert d. induction keys as [|k ks IH]; intro d; simpl; [reflexivity|].
  destruct (existsb (String.eqb k) free); simpl; [reflexivity|]. apply IH.
Qed.

(** X12.  With fixed parameters given, [pipeline.py] exits as soon as one
    of their keys is also a free parameter; otherwise the nested grid
    directory is ["Nested_grid_fix"] followed by ["_" ++ key] for every key
    in order.  Without fixed parameters nothing is checked. *)
Theorem check_fixed_spec (fixed_parameters : option (list string)) (free : list string) :
  check_fixed fixed_parameters free =
  match fixed_parameters with
  | None => inr None
  | Some keys =>
      if existsb (fun param => existsb (String.eqb param) free) keys then inl SystemExit
      else inr (Some (fold_left (fun d param => append d (append "_" param))
                                keys "Nested_grid_fix"))
  end.
Proof.
  destruct fixed_parameters as [keys|]; simpl; [|reflexivity].
  rewrite fixed_loop_spec. destruct (existsb _ keys); reflexivity.
Qed.

(** X13.  The file written by [spectro_constraint] is never the merit value
    file it read: its name is the merit file name with
    [f'{nsigma}sigmaSpectro_'] put in front, hence strictly longer. *)
Theorem output_file_differs (nsigma_repr merit_values_file : string) :
  output_file nsigma_repr merit_values_file <> merit_values_file.
Proof.
  intro E. apply (f_equal String.length) in E. unfold output_file in E.
  rewrite !str_length_app in E. simpl in E. lia.
Qed.

End Pipeline.
